(** * Merge sort of [main.py]: a shallow embedding and its properties

    The Python module defines [merge_sort], [merge] and the table printer
    [simulate_growth].  Lists are Rocq lists, list indices are [nat], and the
    element comparison [left[i] < right[j]] is a boolean function [lt] on the
    element type.  The [while] loop of [merge] and the recursion of
    [merge_sort] are run with a step budget; the theorems show that the
    budget used by [merge] and [merge_sort] is always enough. *)

From Stdlib Require Import List Arith ZArith Lia Bool.
From Stdlib Require Import Sorting.Sorted Sorting.Permutation.
From Stdlib Require Import Reals Lra.
Import ListNotations.

(** ** The program *)

Section Program.

Context {A : Type}.

(** Python's [<] on the elements of the sequence. *)
Variable lt : A -> A -> bool.

(** The local variables of [merge] that the loop changes. *)
Record cursors : Type := Cursors {
  result : list A;
  i : nat;
  j : nat
}.

(** [while i < len(left) and j < len(right): ...]
    One unfolding is one test of the loop condition; [None] is returned
    when the budget is used up before the condition turns false, or when
    an index is out of range ([IndexError]). *)
Fixpoint merge_while (fuel : nat) (left right : list A) (st : cursors)
  : option cursors :=
  if (i st <? length left) && (j st <? length right) then
    match fuel with
    | O => None
    | S fuel' =>
        match nth_error left (i st), nth_error right (j st) with
        | Some x, Some y =>
            if lt x y
            then merge_while fuel' left right
                   (Cursors (result st ++ [x]) (i st + 1) (j st))
            else merge_while fuel' left right
                   (Cursors (result st ++ [y]) (i st) (j st + 1))
        | _, _ => None
        end
    end
  else Some st.

(** [merge(left, right)]: the loop from [result = []], [i = j = 0], then
    [result.extend(left[i:])] and [result.extend(right[j:])]. *)
Definition merge (left right : list A) : option (list A) :=
  match merge_while (length left + length right) left right
          (Cursors [] 0 0) with
  | Some st => Some ((result st ++ skipn (i st) left) ++ skipn (j st) right)
  | None => None
  end.

(** [merge_sort(arr)], with [fuel] bounding the depth of the recursion.
    [arr[:mid]] is [firstn mid arr] and [arr[mid:]] is [skipn mid arr]. *)
Fixpoint merge_sort_rec (fuel : nat) (arr : list A) : option (list A) :=
  if length arr <=? 1 then Some arr
  else
    match fuel with
    | O => None
    | S fuel' =>
        let mid := length arr / 2 in
        match merge_sort_rec fuel' (firstn mid arr) with
        | Some left_half =>
            match merge_sort_rec fuel' (skipn mid arr) with
            | Some right_half => merge left_half right_half
            | None => None
            end
        | None => None
        end
    end.

Definition merge_sort (arr : list A) : option (list A) :=
  merge_sort_rec (length arr) arr.

End Program.

(** ** Element types *)

(** Python values that compare by number: [int] and [bool] ([True == 1],
    [False == 0], and [1 < True] is false). *)
Inductive pyval : Type :=
  | PyInt (n : Z)
  | PyBool (b : bool).

Definition num (v : pyval) : Z :=
  match v with
  | PyInt n => n
  | PyBool b => if b then 1%Z else 0%Z
  end.

Definition py_lt (a b : pyval) : bool := (num a <? num b)%Z.

(** ** Vocabulary of the properties *)

Section Vocabulary.

Context {A : Type}.
Variable lt : A -> A -> bool.

(** [x <= y], read off the only comparison the program makes: [y < x]
    is false. *)
Definition le (x y : A) : Prop := lt y x = false.

(** Two elements are equal-valued (a tie) when neither is less than the
    other. *)
Definition tied (x y : A) : bool := negb (lt x y) && negb (lt y x).

(** Non-decreasing: every adjacent pair of positions is in order. *)
Definition nondecreasing (s : list A) : Prop :=
  forall n x y,
    nth_error s n = Some x -> nth_error s (S n) = Some y -> le x y.

(** The elements of [s] that are equal-valued to [k], in the order in
    which they occur in [s]. *)
Definition equal_valued (k : A) (s : list A) : list A :=
  filter (tied k) s.

(** A sort is stable on [input] when every class of equal-valued elements
    occurs in [output] in its input order. *)
Definition stable (input output : list A) : Prop :=
  forall k, equal_valued k output = equal_valued k input.

(** What the loop of [merge] and the two [extend] calls compute from the
    parts of [left] and [right] that the cursors have not passed yet,
    written by recursion on those parts ([merge_is_merge_list] below). *)
Fixpoint merge_list (l r : list A) : list A :=
  match l with
  | [] => r
  | x :: l' =>
      (fix inner (r : list A) : list A :=
         match r with
         | [] => x :: l'
         | y :: r' =>
             if lt x y then x :: merge_list l' r else y :: inner r'
         end) r
  end.

(** The calls of [merge_sort], as a relation between the argument and
    the returned list: the base case, and the merge of what the two
    recursive calls return. *)
Inductive returns : list A -> list A -> Prop :=
| returns_base arr :
    length arr <= 1 -> returns arr arr
| returns_merge arr left_half right_half :
    1 < length arr ->
    returns (firstn (length arr / 2) arr) left_half ->
    returns (skipn (length arr / 2) arr) right_half ->
    returns arr (merge_list left_half right_half).

(** The orders the properties are stated for. *)
Definition asymmetric : Prop :=
  forall x y, lt x y = true -> lt y x = false.

Definition negatively_transitive : Prop :=
  forall x y z, lt x y = true -> lt x z = true \/ lt z y = true.

Definition antisymmetric : Prop :=
  forall x y, lt x y = false -> lt y x = false -> x = y.

End Vocabulary.

(** ** Counting comparisons *)

Section Counting.

Context {A : Type}.
Variable lt : A -> A -> bool.

(** Every pass through the body of the loop of [merge] evaluates
    [left[i] < right[j]] once and appends one element to [result], which
    is empty before the loop: when the loop is left, [len(result)] is the
    number of comparisons made.
    [merge_counting] is [merge] returning that number with its list. *)
Definition merge_counting (left right : list A) : option (list A * nat) :=
  match merge_while lt (length left + length right) left right
          (Cursors [] 0 0) with
  | Some st =>
      Some ((result st ++ skipn (i st) left) ++ skipn (j st) right,
            length (result st))
  | None => None
  end.

(** [merge_sort] returning, with its list, the number of comparisons made
    in the call and in all the calls below it. *)
Fixpoint merge_sort_counting (fuel : nat) (arr : list A)
  : option (list A * nat) :=
  if length arr <=? 1 then Some (arr, 0)
  else
    match fuel with
    | O => None
    | S fuel' =>
        let mid := length arr / 2 in
        match merge_sort_counting fuel' (firstn mid arr) with
        | Some (left_half, c_left) =>
            match merge_sort_counting fuel' (skipn mid arr) with
            | Some (right_half, c_right) =>
                match merge_counting left_half right_half with
                | Some (out, c) => Some (out, c_left + c_right + c)
                | None => None
                end
            | None => None
            end
        | None => None
        end
    end.

(** [s] is made of the elements of [l] and of [r], each list in its own
    order. *)
Inductive interleaving : list A -> list A -> list A -> Prop :=
| interleaving_nil : interleaving [] [] []
| interleaving_left x l r s :
    interleaving l r s -> interleaving (x :: l) r (x :: s)
| interleaving_right y l r s :
    interleaving l r s -> interleaving l (y :: r) (y :: s).

End Counting.

(** ** Comparisons that raise *)

(** What a call does: it returns a value, or a comparison of two elements
    raises [TypeError], which neither [merge] nor [merge_sort] catches.
    [Unfinished] is a run that is out of budget, or out of range. *)
Inductive outcome (T : Type) : Type :=
| Returned (v : T)
| TypeError
| Unfinished.

Arguments Returned {T} v.
Arguments TypeError {T}.
Arguments Unfinished {T}.

Section Checked.

Context {A : Type}.

(** Python's [<] on elements that need not be comparable: [None] when the
    comparison raises [TypeError]. *)
Variable cmp : A -> A -> option bool.

Fixpoint merge_while_checked (fuel : nat) (left right : list A)
    (st : cursors) : outcome cursors :=
  if (i st <? length left) && (j st <? length right) then
    match fuel with
    | O => Unfinished
    | S fuel' =>
        match nth_error left (i st), nth_error right (j st) with
        | Some x, Some y =>
            match cmp x y with
            | Some true =>
                merge_while_checked fuel' left right
                  (Cursors (result st ++ [x]) (i st + 1) (j st))
            | Some false =>
                merge_while_checked fuel' left right
                  (Cursors (result st ++ [y]) (i st) (j st + 1))
            | None => TypeError
            end
        | _, _ => Unfinished
        end
    end
  else Returned st.

Definition merge_checked (left right : list A) : outcome (list A) :=
  match merge_while_checked (length left + length right) left right
          (Cursors [] 0 0) with
  | Returned st =>
      Returned ((result st ++ skipn (i st) left) ++ skipn (j st) right)
  | TypeError => TypeError
  | Unfinished => Unfinished
  end.

(** The call on [arr[:mid]] is made first; the call on [arr[mid:]] is made
    when the first has returned, and [merge] when both have. *)
Fixpoint merge_sort_rec_checked (fuel : nat) (arr : list A)
  : outcome (list A) :=
  if length arr <=? 1 then Returned arr
  else
    match fuel with
    | O => Unfinished
    | S fuel' =>
        let mid := length arr / 2 in
        match merge_sort_rec_checked fuel' (firstn mid arr) with
        | Returned left_half =>
            match merge_sort_rec_checked fuel' (skipn mid arr) with
            | Returned right_half => merge_checked left_half right_half
            | TypeError => TypeError
            | Unfinished => Unfinished
            end
        | TypeError => TypeError
        | Unfinished => Unfinished
        end
    end.

Definition merge_sort_checked (arr : list A) : outcome (list A) :=
  merge_sort_rec_checked (length arr) arr.

End Checked.

(** ** The growth table of [simulate_growth] *)

Definition sizes : list Z := [10; 100; 1000; 10000]%Z.

(** [math.log2], taken as the logarithm to base two of real numbers. *)
Definition log2 (x : R) : R := (ln x / ln 2)%R.

(** The four values that one line of the table prints.  [linearithmic] is
    [n * math.log2(n)], with the product of real numbers. *)
Record row : Type := Row {
  n : Z;
  linear : Z;
  linearithmic : R;
  quadratic : Z
}.

(** The body of [for n in sizes:], up to the [print]. *)
Definition growth_row (n : Z) : row :=
  Row n n (IZR n * log2 (IZR n))%R (n ^ 2)%Z.

(** The rows of the table, in the order in which they are printed. *)
Definition simulate_growth : list row := map growth_row sizes.

(** [f"{v:.2f}"] prints the multiple of 1/100 nearest to [v]:
    [shown_2f v h] says that it prints [h] hundredths. *)
Definition shown_2f (v : R) (h : Z) : Prop :=
  (IZR h - 1 / 2 < 100 * v < IZR h + 1 / 2)%R.

Example sort_5381 :
  merge_sort Z.ltb [5; 3; 8; 1]%Z = Some [1; 3; 5; 8]%Z.
Proof. reflexivity. Qed.

Example sort_442 :
  merge_sort Z.ltb [4; 4; 2]%Z = Some [2; 4; 4]%Z.
Proof. reflexivity. Qed.

Example sort_int_bool :
  merge_sort py_lt [PyInt 1; PyBool true] = Some [PyBool true; PyInt 1].
Proof. reflexivity. Qed.

(** ** The loop of [merge] *)

Section MergeFacts.

Context {A : Type}.
Variable lt : A -> A -> bool.

Lemma merge_list_nil_r (l : list A) : merge_list lt l [] = l.
Proof. destruct l; reflexivity. Qed.

Lemma merge_list_cons (x y : A) (l r : list A) :
  merge_list lt (x :: l) (y :: r) =
  if lt x y then x :: merge_list lt l (y :: r)
  else y :: merge_list lt (x :: l) r.
Proof. reflexivity. Qed.

Lemma skipn_at (s : list A) (n : nat) (x : A) :
  nth_error s n = Some x -> skipn n s = x :: skipn (S n) s.
Proof.
  revert n; induction s as [|a s IH]; intros [|n] H; simpl in H;
    try discriminate.
  - now inversion H.
  - now apply IH.
Qed.

(** Every run of the loop that starts with enough budget stops by its
    condition, and the list then built from its final cursors is the
    list [merge_list] makes of the two unread suffixes, after what was in
    [result] already. *)
Lemma merge_while_runs (fuel : nat) (left right : list A) :
  forall st : cursors,
    (length left - i st) + (length right - j st) <= fuel ->
    exists st',
      merge_while lt fuel left right st = Some st' /\
      (result st' ++ skipn (i st') left) ++ skipn (j st') right =
      result st ++ merge_list lt (skipn (i st) left) (skipn (j st) right).
Proof.
  induction fuel as [|fuel IH]; intros [res a b] Hfuel; simpl in *.
  - destruct (Nat.ltb_spec a (length left)) as [Ha|Ha];
      destruct (Nat.ltb_spec b (length right)) as [Hb|Hb]; simpl;
      try lia; eexists; (split; [reflexivity|]); simpl.
    rewrite (skipn_all2 left) by lia. now rewrite app_nil_r.
  - destruct (Nat.ltb_spec a (length left)) as [Ha|Ha];
      destruct (Nat.ltb_spec b (length right)) as [Hb|Hb]; simpl.
    + destruct (nth_error left a) as [x|] eqn:Hx;
        [|apply nth_error_None in Hx; lia].
      destruct (nth_error right b) as [y|] eqn:Hy;
        [|apply nth_error_None in Hy; lia].
      rewrite (skipn_at _ _ _ Hx), (skipn_at _ _ _ Hy), merge_list_cons.
      destruct (lt x y).
      * destruct (IH (Cursors (res ++ [x]) (a + 1) b)) as (st' & Hrun & Hres);
          [simpl; lia|].
        exists st'. split; [exact Hrun|].
        rewrite Hres. simpl. rewrite Nat.add_1_r, <- app_assoc. simpl.
        now rewrite (skipn_at _ _ _ Hy).
      * destruct (IH (Cursors (res ++ [y]) a (b + 1))) as (st' & Hrun & Hres);
          [simpl; lia|].
        exists st'. split; [exact Hrun|].
        rewrite Hres. simpl. rewrite Nat.add_1_r, <- app_assoc. simpl.
        now rewrite (skipn_at _ _ _ Hx).
    + eexists; split; [reflexivity|]. simpl.
      rewrite (skipn_all2 right) by lia.
      now rewrite merge_list_nil_r, app_nil_r.
    + eexists; split; [reflexivity|]. simpl.
      rewrite (skipn_all2 left) by lia. now rewrite app_nil_r.
    + eexists; split; [reflexivity|]. simpl.
      rewrite (skipn_all2 left) by lia. now rewrite app_nil_r.
Qed.

Lemma merge_is_merge_list (left right : list A) :
  merge lt left right = Some (merge_list lt left right).
Proof.
  unfold merge.
  destruct (merge_while_runs (length left + length right) left right
              (Cursors [] 0 0)) as (st' & Hrun & Hres); [simpl; lia|].
  rewrite Hrun. f_equal. exact Hres.
Qed.

End MergeFacts.

(** ** What [merge] returns *)

Section MergeListFacts.

Context {A : Type}.
Variable lt : A -> A -> bool.

Lemma merge_list_perm (l r : list A) :
  Permutation (merge_list lt l r) (l ++ r).
Proof.
  revert r; induction l as [|x l IHl]; intro r; [reflexivity|].
  induction r as [|y r IHr].
  - rewrite merge_list_nil_r, app_nil_r. reflexivity.
  - rewrite merge_list_cons. destruct (lt x y).
    + simpl. apply perm_skip, IHl.
    + rewrite IHr. apply Permutation_middle.
Qed.

Lemma merge_list_length (l r : list A) :
  length (merge_list lt l r) = length l + length r.
Proof.
  rewrite (Permutation_length (merge_list_perm l r)). apply length_app.
Qed.

Lemma merge_list_HdRel (a : A) (l r : list A) :
  HdRel (le lt) a l -> HdRel (le lt) a r ->
  HdRel (le lt) a (merge_list lt l r).
Proof.
  intros Hl Hr. destruct l as [|x l]; [exact Hr|].
  destruct r as [|y r]; [exact Hl|].
  rewrite merge_list_cons. destruct (lt x y); constructor.
  - now inversion Hl.
  - now inversion Hr.
Qed.

Lemma merge_list_sorted (l r : list A) :
  asymmetric lt ->
  Sorted (le lt) l -> Sorted (le lt) r ->
  Sorted (le lt) (merge_list lt l r).
Proof.
  intro Hasym. revert r; induction l as [|x l IHl]; intros r Hl Hr;
    [exact Hr|].
  induction r as [|y r IHr]; [exact Hl|].
  rewrite merge_list_cons. destruct (lt x y) eqn:Hxy.
  - inversion Hl; subst. constructor.
    + now apply IHl.
    + apply merge_list_HdRel; [assumption|].
      constructor. now apply Hasym.
  - inversion Hr; subst. constructor.
    + now apply IHr.
    + apply merge_list_HdRel; [|assumption].
      constructor. exact Hxy.
Qed.

(** The two readings of "sorted": by adjacent positions, and [Sorted]. *)
Lemma Sorted_nondecreasing (s : list A) :
  Sorted (le lt) s -> nondecreasing lt s.
Proof.
  induction 1 as [|a s Hs IH Hd]; intros n x y Hx Hy.
  - now destruct n.
  - destruct n as [|n]; simpl in Hx, Hy.
    + inversion Hx; subst. destruct Hd; simpl in Hy.
      * discriminate.
      * now inversion Hy; subst.
    + exact (IH n x y Hx Hy).
Qed.

Lemma nondecreasing_Sorted (s : list A) :
  nondecreasing lt s -> Sorted (le lt) s.
Proof.
  induction s as [|a s IH]; intro H; constructor.
  - apply IH. intros n x y Hx Hy. exact (H (S n) x y Hx Hy).
  - destruct s as [|b s]; constructor. now apply (H 0 a b).
Qed.

Lemma short_sorted (s : list A) : length s <= 1 -> Sorted (le lt) s.
Proof.
  destruct s as [|a [|b s]]; simpl; intro H; try lia; repeat constructor.
Qed.

End MergeListFacts.

(** ** The recursion of [merge_sort] *)

Section MergeSortFacts.

Context {A : Type}.
Variable lt : A -> A -> bool.

Lemma merge_sort_rec_unfold (fuel : nat) (arr : list A) :
  merge_sort_rec lt fuel arr =
  if length arr <=? 1 then Some arr
  else
    match fuel with
    | O => None
    | S fuel' =>
        match merge_sort_rec lt fuel' (firstn (length arr / 2) arr) with
        | Some left_half =>
            match merge_sort_rec lt fuel' (skipn (length arr / 2) arr) with
            | Some right_half => merge lt left_half right_half
            | None => None
            end
        | None => None
        end
    end.
Proof. destruct fuel; reflexivity. Qed.

(** Both slices of a sequence of length two or more are strictly shorter
    than the sequence. *)
Lemma halves_shorter (arr : list A) :
  1 < length arr ->
  length (firstn (length arr / 2) arr) < length arr /\
  length (skipn (length arr / 2) arr) < length arr.
Proof.
  intro H.
  assert (Hlt : length arr / 2 < length arr) by (apply Nat.div_lt; lia).
  assert (Hpos : 0 < length arr / 2) by (apply Nat.div_str_pos; lia).
  rewrite length_firstn, length_skipn. lia.
Qed.

Lemma returns_functional (arr out1 out2 : list A) :
  returns lt arr out1 -> returns lt arr out2 -> out1 = out2.
Proof.
  intro H; revert out2.
  induction H as [arr Hlen|arr l r Hlen Hl IHl Hr IHr]; intros out2 H2;
    inversion H2; subst; try lia; [reflexivity|].
  f_equal; [apply IHl|apply IHr]; assumption.
Qed.

(** With a budget of at least the length of the argument the recursion
    reaches its base cases, and it returns what [returns] describes. *)
Lemma merge_sort_rec_returns (fuel : nat) :
  forall arr : list A,
    length arr <= fuel ->
    exists out, merge_sort_rec lt fuel arr = Some out /\ returns lt arr out.
Proof.
  induction fuel as [|fuel IH]; intros arr Hfuel;
    rewrite merge_sort_rec_unfold;
    destruct (Nat.leb_spec (length arr) 1) as [Hlen|Hlen];
    try (exists arr; split; [reflexivity|now constructor]); [lia|].
  destruct (halves_shorter arr Hlen) as [Hl Hr].
  destruct (IH (firstn (length arr / 2) arr)) as (l & El & Rl); [lia|].
  destruct (IH (skipn (length arr / 2) arr)) as (r & Er & Rr); [lia|].
  rewrite El, Er, merge_is_merge_list.
  eexists; split; [reflexivity|]. now constructor.
Qed.

Lemma merge_sort_returns (arr : list A) :
  exists out, merge_sort lt arr = Some out /\ returns lt arr out.
Proof. apply merge_sort_rec_returns. lia. Qed.

Lemma returns_perm (arr out : list A) :
  returns lt arr out -> Permutation out arr.
Proof.
  induction 1 as [arr Hlen|arr l r Hlen Hl IHl Hr IHr]; [reflexivity|].
  rewrite merge_list_perm, IHl, IHr. now rewrite firstn_skipn.
Qed.

Lemma returns_sorted (arr out : list A) :
  asymmetric lt -> returns lt arr out -> Sorted (le lt) out.
Proof.
  intro Hasym.
  induction 1 as [arr Hlen|arr l r Hlen Hl IHl Hr IHr].
  - now apply short_sorted.
  - now apply merge_list_sorted.
Qed.

End MergeSortFacts.

(** ** Integers as elements *)

Lemma Z_ltb_asymmetric : asymmetric Z.ltb.
Proof. intros x y H. apply Z.ltb_lt in H. apply Z.ltb_ge. lia. Qed.

Lemma Z_ltb_negatively_transitive : negatively_transitive Z.ltb.
Proof.
  intros x y z H. apply Z.ltb_lt in H.
  destruct (Z.ltb_spec x z); [now left|right]. apply Z.ltb_lt. lia.
Qed.

Lemma Z_ltb_antisymmetric : antisymmetric Z.ltb.
Proof. intros x y H1 H2. apply Z.ltb_ge in H1, H2. lia. Qed.

Lemma Z_le_is_leb (x y : Z) : le Z.ltb x y <-> (x <= y)%Z.
Proof. unfold le. rewrite Z.ltb_ge. reflexivity. Qed.

(** ** Properties of [merge] and [merge_sort] *)

(** C2 (sortedness): for every sequence [S] whose elements the comparison
    orders, [merge_sort S] returns a list, and in that list every element
    is less than or equal to the element at the next position. *)
Theorem merge_sort_nondecreasing {A : Type} (lt : A -> A -> bool)
    (S : list A) :
  asymmetric lt ->
  exists out, merge_sort lt S = Some out /\ nondecreasing lt out.
Proof.
  intro Hasym.
  destruct (merge_sort_returns lt S) as (out & Hout & Hret).
  exists out. split; [exact Hout|].
  apply Sorted_nondecreasing. exact (returns_sorted lt S out Hasym Hret).
Qed.

Lemma merge_sort_nondecreasing_witness :
  asymmetric Z.ltb /\
  exists out,
    merge_sort Z.ltb [5; 3; 8; 1]%Z = Some out /\ nondecreasing Z.ltb out.
Proof.
  split.
  - exact Z_ltb_asymmetric.
  - apply (merge_sort_nondecreasing Z.ltb). exact Z_ltb_asymmetric.
Defined.

(** C3 (multiset and length): for every sequence [S], [merge_sort S]
    returns a permutation of [S], which has the length of [S]. *)
Theorem merge_sort_permutation {A : Type} (lt : A -> A -> bool)
    (S : list A) :
  exists out,
    merge_sort lt S = Some out /\
    Permutation out S /\ length out = length S.
Proof.
  destruct (merge_sort_returns lt S) as (out & Hout & Hret).
  exists out. split; [exact Hout|].
  pose proof (returns_perm lt S out Hret) as Hperm.
  split; [exact Hperm|]. exact (Permutation_length Hperm).
Qed.

(** C4 (merge correctness): for sorted [left] and [right], [merge] returns
    a sorted list of length [len(left) + len(right)] that is a permutation
    of [left] followed by [right]. *)
Theorem merge_correct {A : Type} (lt : A -> A -> bool)
    (left right : list A) :
  asymmetric lt ->
  nondecreasing lt left -> nondecreasing lt right ->
  exists out,
    merge lt left right = Some out /\
    nondecreasing lt out /\
    length out = length left + length right /\
    Permutation out (left ++ right).
Proof.
  intros Hasym Hl Hr.
  exists (merge_list lt left right).
  split; [apply merge_is_merge_list|].
  split; [|split].
  - apply Sorted_nondecreasing, merge_list_sorted;
      auto using nondecreasing_Sorted.
  - apply merge_list_length.
  - apply merge_list_perm.
Qed.

Lemma merge_correct_witness :
  exists out,
    merge Z.ltb [1; 4]%Z [2; 3; 4]%Z = Some out /\
    nondecreasing Z.ltb out /\
    length out = 2 + 3 /\
    Permutation out ([1; 4] ++ [2; 3; 4])%Z.
Proof.
  apply (merge_correct Z.ltb [1; 4]%Z [2; 3; 4]%Z).
  - exact Z_ltb_asymmetric.
  - apply Sorted_nondecreasing. repeat constructor.
  - apply Sorted_nondecreasing. repeat constructor.
Defined.

(** C6 (boundary): [merge_sort] of the empty sequence is the empty
    sequence and [merge_sort [x]] is [[x]]; with any budget, the function
    returns its argument as it is in both cases. *)
Theorem merge_sort_boundary {A : Type} (lt : A -> A -> bool) :
  merge_sort lt [] = Some [] /\
  (forall x, merge_sort lt [x] = Some [x]) /\
  (forall fuel, merge_sort_rec lt fuel [] = Some []) /\
  (forall fuel x, merge_sort_rec lt fuel [x] = Some [x]).
Proof.
  repeat split; intros; try reflexivity.
  - destruct fuel; reflexivity.
  - destruct fuel; reflexivity.
Qed.

(** C8 (termination): on every sequence [merge_sort] returns: every budget
    of at least the length of the sequence gives the same returned list,
    [merge_sort]'s own budget among them; and in a call on a sequence of
    length two or more, both recursive calls receive a strictly shorter
    sequence. *)
Theorem merge_sort_terminates {A : Type} (lt : A -> A -> bool)
    (arr : list A) :
  (exists out,
     merge_sort lt arr = Some out /\
     forall fuel, length arr <= fuel ->
                  merge_sort_rec lt fuel arr = Some out) /\
  (1 < length arr ->
   length (firstn (length arr / 2) arr) < length arr /\
   length (skipn (length arr / 2) arr) < length arr).
Proof.
  split; [|apply halves_shorter].
  destruct (merge_sort_returns lt arr) as (out & Hout & Hret).
  exists out. split; [exact Hout|].
  intros fuel Hfuel.
  destruct (merge_sort_rec_returns lt fuel arr Hfuel) as (out' & Hout' & Hret').
  rewrite Hout'. f_equal. exact (returns_functional lt arr out' out Hret' Hret).
Qed.

(** C9 (empty input is an identity for [merge]): for every [B], sorted or
    not, [merge [] B] is [B], and for every [A], [merge A []] is [A]; the
    loop body is not entered in either call. *)
Theorem merge_empty_identity {A : Type} (lt : A -> A -> bool) :
  (forall B, merge lt [] B = Some B) /\
  (forall A0, merge lt A0 [] = Some A0) /\
  (forall fuel B st, merge_while lt fuel [] B st = Some st) /\
  (forall fuel A0 st, merge_while lt fuel A0 [] st = Some st).
Proof.
  repeat split; intros.
  - rewrite merge_is_merge_list. reflexivity.
  - rewrite merge_is_merge_list, merge_list_nil_r. reflexivity.
  - destruct fuel; reflexivity.
  - destruct fuel; simpl; rewrite andb_false_r; reflexivity.
Qed.

(** C10 (merge keeps the elements, sorted inputs or not): for every [left]
    and [right], [merge] returns a permutation of [left] followed by
    [right], of length [len(left) + len(right)]. *)
Theorem merge_keeps_elements {A : Type} (lt : A -> A -> bool)
    (left right : list A) :
  exists out,
    merge lt left right = Some out /\
    Permutation out (left ++ right) /\
    length out = length left + length right.
Proof.
  exists (merge_list lt left right).
  split; [apply merge_is_merge_list|].
  split; [apply merge_list_perm|apply merge_list_length].
Qed.

(** ** Ties *)

Section WeakOrder.

Context {A : Type}.
Variable lt : A -> A -> bool.
Hypothesis Hasym : asymmetric lt.
Hypothesis Hneg : negatively_transitive lt.

Lemma lt_irrefl (x : A) : lt x x = false.
Proof.
  destruct (lt x x) eqn:H; [|reflexivity].
  rewrite (Hasym x x H) in H. discriminate.
Qed.

Lemma le_trans (x y z : A) : le lt x y -> le lt y z -> le lt x z.
Proof.
  unfold le. intros Hxy Hyz.
  destruct (lt z x) eqn:H; [|reflexivity].
  destruct (Hneg z x y H) as [H'|H']; congruence.
Qed.

Lemma lt_le_trans (x y z : A) :
  lt x y = true -> le lt y z -> lt x z = true.
Proof.
  unfold le. intros Hxy Hyz.
  destruct (Hneg x y z Hxy) as [H|H]; congruence.
Qed.

Lemma Sorted_le_all (x : A) (s : list A) :
  Sorted (le lt) (x :: s) -> Forall (le lt x) s.
Proof.
  apply Sorted_extends. intros a b c. apply le_trans.
Qed.

Lemma tied_sym (x y : A) : tied lt x y = tied lt y x.
Proof. unfold tied. apply andb_comm. Qed.

Lemma tied_true (x y : A) :
  tied lt x y = true <-> lt x y = false /\ lt y x = false.
Proof.
  unfold tied. rewrite andb_true_iff, !negb_true_iff. reflexivity.
Qed.

(** An element below [z] is tied to nothing that is tied to [z]. *)
Lemma tied_below (k x z : A) :
  tied lt k x = true -> lt x z = true -> tied lt k z = false.
Proof.
  intros Hk Hxz. apply tied_true in Hk. destruct Hk as [Hkx Hxk].
  unfold tied. destruct (Hneg x z k Hxz) as [H|H]; [congruence|].
  now rewrite H.
Qed.

Lemma tied_trans (x y z : A) :
  tied lt x y = true -> tied lt y z = true -> tied lt x z = true.
Proof.
  intros Hxy Hyz. apply tied_true in Hxy, Hyz.
  destruct Hxy as [Hxy Hyx], Hyz as [Hyz Hzy]. apply tied_true. split.
  - destruct (lt x z) eqn:H; [|reflexivity].
    destruct (Hneg x z y H); congruence.
  - destruct (lt z x) eqn:H; [|reflexivity].
    destruct (Hneg z x y H); congruence.
Qed.

Lemma no_tie_above (k x : A) (s : list A) :
  tied lt k x = true ->
  Forall (fun z => lt x z = true) s ->
  equal_valued lt k s = [].
Proof.
  intros Hk. induction 1 as [|z s Hz _ IH]; [reflexivity|].
  unfold equal_valued in *. simpl.
  now rewrite (tied_below k x z Hk Hz).
Qed.

Lemma equal_valued_cons (k a : A) (s : list A) :
  equal_valued lt k (a :: s) =
  if tied lt k a then a :: equal_valued lt k s else equal_valued lt k s.
Proof. reflexivity. Qed.

(** On sorted inputs, [merge] puts the elements of [right] that are tied
    to [k] before those of [left]. *)
Lemma merge_list_ties (k : A) (l r : list A) :
  Sorted (le lt) l -> Sorted (le lt) r ->
  equal_valued lt k (merge_list lt l r) =
  equal_valued lt k r ++ equal_valued lt k l.
Proof.
  revert r; induction l as [|x l IHl]; intros r Hl Hr.
  - simpl. now rewrite app_nil_r.
  - induction r as [|y r IHr]; [reflexivity|].
    rewrite merge_list_cons. destruct (lt x y) eqn:Hxy.
    + rewrite (equal_valued_cons k x (merge_list lt l (y :: r))), IHl;
        [|now inversion Hl|assumption].
      rewrite (equal_valued_cons k x l).
      destruct (tied lt k x) eqn:Hk; [|reflexivity].
      assert (Hnone : equal_valued lt k (y :: r) = []).
      { apply (no_tie_above k x); [assumption|].
        constructor; [assumption|].
        apply (Forall_impl _ (fun z Hz => lt_le_trans x y z Hxy Hz)).
        now apply Sorted_le_all. }
      now rewrite Hnone.
    + rewrite (equal_valued_cons k y (merge_list lt (x :: l) r)), IHr;
        [|now inversion Hr].
      rewrite (equal_valued_cons k y r).
      destruct (tied lt k y); reflexivity.
Qed.

(** [merge_sort] returns each class of equal-valued elements in the
    reverse of its input order. *)
Lemma returns_ties_reversed (k : A) (arr out : list A) :
  returns lt arr out ->
  equal_valued lt k out = rev (equal_valued lt k arr).
Proof.
  induction 1 as [arr Hlen|arr l r Hlen Hl IHl Hr IHr].
  - destruct arr as [|a [|b arr]]; simpl in *; try lia; [reflexivity|].
    unfold equal_valued. simpl. destruct (tied lt k a); reflexivity.
  - rewrite merge_list_ties;
      [|exact (returns_sorted lt _ _ Hasym Hl)
       |exact (returns_sorted lt _ _ Hasym Hr)].
    rewrite IHl, IHr, <- rev_app_distr.
    unfold equal_valued. rewrite <- filter_app.
    now rewrite firstn_skipn.
Qed.

Lemma tied_refl (x : A) : tied lt x x = true.
Proof. apply tied_true. split; apply lt_irrefl. Qed.

Lemma tied_congr (k x y : A) :
  tied lt x y = true -> tied lt k x = tied lt k y.
Proof.
  intro Hxy.
  destruct (tied lt k x) eqn:Hx, (tied lt k y) eqn:Hy; try reflexivity.
  - rewrite (tied_trans k x y Hx Hxy) in Hy. discriminate.
  - rewrite tied_sym in Hxy.
    rewrite (tied_trans k y x Hy Hxy) in Hx. discriminate.
Qed.

(** Two sorted lists with as many elements in every class of
    equal-valued elements have tied elements at every position. *)
Lemma sorted_same_classes (l l' : list A) :
  Sorted (le lt) l -> Sorted (le lt) l' ->
  (forall k,
     length (equal_valued lt k l) = length (equal_valued lt k l')) ->
  Forall2 (fun a b => tied lt a b = true) l l'.
Proof.
  revert l'; induction l as [|x l IH]; intros [|y l'] Hl Hl' Hcount.
  - constructor.
  - specialize (Hcount y).
    rewrite equal_valued_cons, tied_refl in Hcount. discriminate.
  - specialize (Hcount x).
    rewrite equal_valued_cons, tied_refl in Hcount. discriminate.
  - assert (Hxy : tied lt x y = true).
    { apply tied_true. split.
      - destruct (lt x y) eqn:H; [|reflexivity]. exfalso.
        specialize (Hcount x).
        rewrite (no_tie_above x x (y :: l') (tied_refl x)) in Hcount.
        + rewrite equal_valued_cons, tied_refl in Hcount. discriminate.
        + constructor; [assumption|].
          apply (Forall_impl _ (fun z Hz => lt_le_trans x y z H Hz)).
          now apply Sorted_le_all.
      - destruct (lt y x) eqn:H; [|reflexivity]. exfalso.
        specialize (Hcount y).
        rewrite (no_tie_above y y (x :: l) (tied_refl y)) in Hcount.
        + rewrite equal_valued_cons, tied_refl in Hcount. discriminate.
        + constructor; [assumption|].
          apply (Forall_impl _ (fun z Hz => lt_le_trans y x z H Hz)).
          now apply Sorted_le_all. }
    constructor; [exact Hxy|].
    apply IH; [now inversion Hl|now inversion Hl'|].
    intro k. specialize (Hcount k).
    rewrite !equal_valued_cons, (tied_congr k x y Hxy) in Hcount.
    destruct (tied lt k y); simpl in Hcount; lia.
Qed.

Lemma tied_everywhere_eq (l l' : list A) :
  antisymmetric lt ->
  Forall2 (fun a b => tied lt a b = true) l l' -> l = l'.
Proof.
  intro Hanti. induction 1 as [|x y l l' Hxy _ IH]; [reflexivity|].
  apply tied_true in Hxy. destruct Hxy as [Hxy Hyx].
  f_equal; [now apply Hanti|exact IH].
Qed.

End WeakOrder.

(** ** Numbers of mixed type as elements *)

Lemma py_lt_asymmetric : asymmetric py_lt.
Proof. intros x y. apply Z_ltb_asymmetric. Qed.

Lemma py_lt_negatively_transitive : negatively_transitive py_lt.
Proof. intros x y z. apply Z_ltb_negatively_transitive. Qed.

(** Sorting [[1, True]] twice gives back [[1, True]], which has the elements
    of [[True, 1]] tied position by position, and is not the same list. *)
Example sort_twice_int_bool :
  merge_sort py_lt [PyBool true; PyInt 1] = Some [PyInt 1; PyBool true].
Proof. reflexivity. Qed.

(** ** Ties, stability and idempotence *)

(** C1, as the specification states it, fails on [[1, True]]: the two
    elements are equal-valued, [merge] puts the right one first, and
    [merge_sort] returns them in the other order than the input has them. *)
Lemma merge_sort_not_stable :
  tied py_lt (PyInt 1) (PyBool true) = true /\
  merge py_lt [PyInt 1] [PyBool true] = Some [PyBool true; PyInt 1] /\
  merge_sort py_lt [PyInt 1; PyBool true] = Some [PyBool true; PyInt 1] /\
  ~ stable py_lt [PyInt 1; PyBool true] [PyBool true; PyInt 1].
Proof.
  repeat split. intro H. specialize (H (PyInt 1)). discriminate.
Qed.

(** C1 (amended): [merge] resolves ties by taking the right element
    first: at a tie the loop appends [right[j]] and advances [j], so
    [merge] of two lists whose heads are tied starts with the head of
    [right]; and consequently, for every input sequence, [merge_sort]
    returns each class of equal-valued elements in the reverse of its input
    order. *)
Theorem merge_ties_right_first {A : Type} (lt : A -> A -> bool) :
  asymmetric lt -> negatively_transitive lt ->
  (forall fuel left right st x y,
      nth_error left (i st) = Some x ->
      nth_error right (j st) = Some y ->
      tied lt x y = true ->
      merge_while lt (S fuel) left right st =
      merge_while lt fuel left right
        (Cursors (result st ++ [y]) (i st) (j st + 1))) /\
  (forall x y l r,
      tied lt x y = true ->
      merge lt (x :: l) (y :: r) =
      option_map (cons y) (merge lt (x :: l) r)) /\
  (forall S,
      exists out,
        merge_sort lt S = Some out /\
        forall k, equal_valued lt k out = rev (equal_valued lt k S)).
Proof.
  intros Hasym Hneg. split; [|split].
  - intros fuel left right st x y Hx Hy Hxy.
    apply tied_true in Hxy. destruct Hxy as [Hxy _].
    assert (Hi : i st < length left)
      by (apply nth_error_Some; congruence).
    assert (Hj : j st < length right)
      by (apply nth_error_Some; congruence).
    apply Nat.ltb_lt in Hi, Hj.
    simpl. now rewrite Hi, Hj, Hx, Hy, Hxy.
  - intros x y l r Hxy.
    apply tied_true in Hxy. destruct Hxy as [Hxy _].
    rewrite !merge_is_merge_list, merge_list_cons, Hxy. reflexivity.
  - intro S.
    destruct (merge_sort_returns lt S) as (out & Hout & Hret).
    exists out. split; [exact Hout|].
    intro k. now apply returns_ties_reversed.
Qed.

Lemma merge_ties_right_first_witness :
  exists out,
    merge_sort py_lt [PyInt 1; PyBool true; PyInt 0; PyInt 1] = Some out /\
    forall k,
      equal_valued py_lt k out =
      rev (equal_valued py_lt k [PyInt 1; PyBool true; PyInt 0; PyInt 1]).
Proof.
  apply (merge_ties_right_first py_lt).
  - exact py_lt_asymmetric.
  - exact py_lt_negatively_transitive.
Defined.




(** ** The growth table *)

Lemma ln_2_pos : (0 < ln 2)%R.
Proof. rewrite <- ln_1. apply ln_increasing; lra. Qed.

Lemma ln_IZR_pow (b : Z) (e : positive) :
  (0 < b)%Z ->
  ln (IZR (b ^ Zpos e)) = (IZR (Zpos e) * ln (IZR b))%R.
Proof.
  intro Hb.
  rewrite <- (positive_nat_Z e), <- pow_IZR, ln_pow, INR_IZR_INZ;
    [reflexivity|].
  now apply IZR_lt.
Qed.

(** A comparison of two integer powers is a comparison of multiples of
    logarithms. *)
Lemma pow_lt_ln (a b : Z) (p q : positive) :
  (0 < a)%Z -> (0 < b)%Z -> (a ^ Zpos p < b ^ Zpos q)%Z ->
  (IZR (Zpos p) * ln (IZR a) < IZR (Zpos q) * ln (IZR b))%R.
Proof.
  intros Ha Hb H. apply IZR_lt in H.
  apply ln_increasing in H;
    [|apply IZR_lt; apply Z.pow_pos_nonneg; lia].
  now rewrite !ln_IZR_pow in H by lia.
Qed.

Lemma log2_scaled (b : Z) (q : positive) :
  (IZR (Zpos q) * log2 (IZR b) * ln 2 = IZR (Zpos q) * ln (IZR b))%R.
Proof. unfold log2. pose proof ln_2_pos. field. lra. Qed.

(** [p / q < log2 b] follows from [2 ^ p < b ^ q], and [log2 b < p / q]
    from [b ^ q < 2 ^ p]. *)
Lemma log2_above (b : Z) (p q : positive) :
  (0 < b)%Z -> (2 ^ Zpos p < b ^ Zpos q)%Z ->
  (IZR (Zpos p) < IZR (Zpos q) * log2 (IZR b))%R.
Proof.
  intros Hb H. apply (Rmult_lt_reg_r (ln 2)); [exact ln_2_pos|].
  rewrite log2_scaled. apply pow_lt_ln; [lia|exact Hb|exact H].
Qed.

Lemma log2_below (b : Z) (p q : positive) :
  (0 < b)%Z -> (b ^ Zpos q < 2 ^ Zpos p)%Z ->
  (IZR (Zpos q) * log2 (IZR b) < IZR (Zpos p))%R.
Proof.
  intros Hb H. apply (Rmult_lt_reg_r (ln 2)); [exact ln_2_pos|].
  rewrite log2_scaled. apply pow_lt_ln; [exact Hb|lia|exact H].
Qed.

Lemma log2_10_bounds :
  (13301 < 4004 * log2 10 /\ 8651 * log2 10 < 28738)%R.
Proof.
  split.
  - apply (log2_above 10 13301 4004); [lia|].
    apply Z.ltb_lt. vm_compute. reflexivity.
  - apply (log2_below 10 28738 8651); [lia|].
    apply Z.ltb_lt. vm_compute. reflexivity.
Qed.

Lemma log2_10000 : log2 10000 = (4 * log2 10)%R.
Proof.
  unfold log2. change 10000%R with (IZR (10 ^ 4)).
  rewrite ln_IZR_pow by lia. pose proof ln_2_pos. field. lra.
Qed.

(** C7 (growth table): the table has a row for [n = 10000]; its quadratic
    column is exactly 100000000; and its linearithmic column, printed with
    two decimals, reads 132877.12: every value within 1/10000 of
    [n * log2 n] is shown as 13287712 hundredths. *)
Theorem growth_row_10000 :
  exists r : row,
    In r simulate_growth /\
    n r = 10000%Z /\
    quadratic r = 100000000%Z /\
    forall v : R,
      (Rabs (v - linearithmic r) <= 1 / 10000)%R ->
      shown_2f v 13287712.
Proof.
  exists (growth_row 10000).
  split; [simpl; tauto|]. split; [reflexivity|]. split; [reflexivity|].
  intros v Hv. simpl in Hv. rewrite log2_10000 in Hv.
  destruct log2_10_bounds as [Hlo Hhi].
  unfold shown_2f. unfold Rabs in Hv.
  destruct (Rcase_abs (v - 10000 * (4 * log2 10))); lra.
Qed.

Lemma growth_row_10000_witness :
  exists r : row,
    In r simulate_growth /\ n r = 10000%Z /\
    shown_2f (linearithmic r) 13287712.
Proof.
  destruct growth_row_10000 as (r & Hin & Hn & _ & Hshown).
  exists r. split; [exact Hin|]. split; [exact Hn|].
  apply Hshown. rewrite Rminus_diag, Rabs_R0. lra.
Defined.

(** ** The cursors of [merge] *)

Section LoopFacts.

Context {A : Type}.
Variable lt : A -> A -> bool.

Lemma merge_while_stop (fuel : nat) (left right : list A) (st : cursors) :
  length left <= i st \/ length right <= j st ->
  merge_while lt fuel left right st = Some st.
Proof.
  intro H. destruct fuel; simpl;
    destruct (Nat.ltb_spec (i st) (length left));
    destruct (Nat.ltb_spec (j st) (length right)); simpl;
    try reflexivity; lia.
Qed.

Lemma firstn_at (s : list A) (k : nat) (x : A) :
  nth_error s k = Some x -> firstn (k + 1) s = firstn k s ++ [x].
Proof.
  revert k; induction s as [|a s IH]; intros [|k] H; simpl in H;
    try discriminate.
  - now inversion H.
  - simpl. f_equal. now apply IH.
Qed.

(** From cursors within the two lists, the loop makes a number [k] of
    passes and stops; the cursors advance by [k] in all, stay within the
    lists, and [result] grows by the [k] elements they pass. *)
Lemma merge_while_passes (bound : nat) (left right : list A) :
  forall st : cursors,
    (length left - i st) + (length right - j st) <= bound ->
    i st <= length left -> j st <= length right ->
    Permutation (result st) (firstn (i st) left ++ firstn (j st) right) ->
    exists st' k,
      (forall fuel,
         merge_while lt fuel left right st =
         if k <=? fuel then Some st' else None) /\
      length (result st') = length (result st) + k /\
      i st' + j st' = i st + j st + k /\
      i st' <= length left /\ j st' <= length right /\
      (i st' = length left \/ j st' = length right) /\
      (i st' < length left \/ j st' < length right \/ st' = st) /\
      Permutation (result st') (firstn (i st') left ++ firstn (j st') right).
Proof.
  induction bound as [|bound IH]; intros st Hbound Hi Hj Hperm.
  - exists st, 0. split.
    + intro fuel. rewrite merge_while_stop by lia. reflexivity.
    + repeat split;
        first [lia|exact Hperm|right; right; reflexivity].
  - destruct (Nat.ltb_spec (i st) (length left)) as [Ha|Ha];
      [destruct (Nat.ltb_spec (j st) (length right)) as [Hb|Hb]|].
    + destruct (nth_error left (i st)) as [x|] eqn:Hx;
        [|apply nth_error_None in Hx; lia].
      destruct (nth_error right (j st)) as [y|] eqn:Hy;
        [|apply nth_error_None in Hy; lia].
      assert (Hstep : forall fuel,
                 merge_while lt (S fuel) left right st =
                 merge_while lt fuel left right
                   (if lt x y
                    then Cursors (result st ++ [x]) (i st + 1) (j st)
                    else Cursors (result st ++ [y]) (i st) (j st + 1))).
      { intro fuel. simpl.
        apply Nat.ltb_lt in Ha, Hb. rewrite Ha, Hb, Hx, Hy. simpl.
        now destruct (lt x y). }
      assert (Hzero : merge_while lt 0 left right st = None).
      { simpl. apply Nat.ltb_lt in Ha, Hb. now rewrite Ha, Hb. }
      destruct (IH (if lt x y
                    then Cursors (result st ++ [x]) (i st + 1) (j st)
                    else Cursors (result st ++ [y]) (i st) (j st + 1)))
        as (st' & k & Hrun & Hlen & Hsum & Hi' & Hj' & Hend & Hnot & Hperm').
      * destruct (lt x y); simpl; lia.
      * destruct (lt x y); simpl; lia.
      * destruct (lt x y); simpl; lia.
      * destruct (lt x y); simpl.
        -- rewrite (firstn_at _ _ _ Hx), Hperm, <- !app_assoc.
           apply Permutation_app_head, Permutation_app_comm.
        -- rewrite (firstn_at _ _ _ Hy), Hperm, <- !app_assoc.
           reflexivity.
      * exists st', (S k). split.
        { intros [|fuel]; [exact Hzero|]. rewrite Hstep. apply Hrun. }
        destruct (lt x y); simpl in *; rewrite ?length_app in Hlen;
          simpl in Hlen;
          (repeat split; try lia; [|exact Hperm']);
          destruct Hnot as [Hn|[Hn|Hn]]; try (left; lia); try (right; left; lia);
          subst st'; simpl in *; [right; left; lia|left; lia].
    + exists st, 0. split.
      * intro fuel. rewrite merge_while_stop by lia. reflexivity.
      * repeat split;
          first [lia|exact Hperm|right; right; reflexivity].
    + exists st, 0. split.
      * intro fuel. rewrite merge_while_stop by lia. reflexivity.
      * repeat split;
          first [lia|exact Hperm|right; right; reflexivity].
Qed.

End LoopFacts.

(** X1 (the loop of [merge], when it is left): the cursors are within the
    two lists, at least one of them is at the end of its list, so that at
    most one of the two [extend] calls appends anything, and [result] holds
    the elements that the cursors have passed. *)
Theorem merge_loop_exit {A : Type} (lt : A -> A -> bool)
    (left right : list A) :
  exists st,
    merge_while lt (length left + length right) left right
      (Cursors [] 0 0) = Some st /\
    i st <= length left /\ j st <= length right /\
    (i st = length left \/ j st = length right) /\
    (skipn (i st) left = [] \/ skipn (j st) right = []) /\
    Permutation (result st) (firstn (i st) left ++ firstn (j st) right).
Proof.
  destruct (merge_while_passes lt (length left + length right) left right
              (Cursors [] 0 0))
    as (st & k & Hrun & Hlen & Hsum & Hi & Hj & Hend & _ & Hperm);
    simpl; try lia; [reflexivity|].
  simpl in Hsum. exists st. split.
  - rewrite Hrun. destruct (Nat.leb_spec k (length left + length right));
      [reflexivity|lia].
  - repeat split; try assumption.
    destruct Hend as [H|H]; [left|right]; apply skipn_all2; lia.
Qed.

(** X2 (merging is linear): the loop of [merge] makes exactly
    [len(result)] passes, one comparison each: a budget of that many
    passes is enough and a smaller one is not.  Their number is at least
    the length of the shorter list, so none is made when a list is empty,
    and it is less than [len(left) + len(right)] when neither list is
    empty. *)
Theorem merge_comparisons_linear {A : Type} (lt : A -> A -> bool)
    (left right : list A) :
  exists st,
    (forall fuel,
       merge_while lt fuel left right (Cursors [] 0 0) =
       if length (result st) <=? fuel then Some st else None) /\
    Nat.min (length left) (length right) <= length (result st) /\
    (left = [] \/ right = [] -> length (result st) = 0) /\
    (left <> [] -> right <> [] ->
     length (result st) < length left + length right).
Proof.
  destruct (merge_while_passes lt (length left + length right) left right
              (Cursors [] 0 0))
    as (st & k & Hrun & Hlen & Hsum & Hi & Hj & Hend & Hnot & _);
    simpl; try lia; [reflexivity|].
  simpl in Hlen, Hsum. exists st. rewrite Hlen. split; [exact Hrun|].
  split; [lia|]. split.
  - intro Hempty. specialize (Hrun 0).
    rewrite merge_while_stop in Hrun
      by (destruct Hempty as [H|H]; subst; simpl; lia).
    destruct k as [|k]; [reflexivity|discriminate].
  - intros Hl Hr.
    assert (0 < length left) by (destruct left; [congruence|simpl; lia]).
    assert (0 < length right) by (destruct right; [congruence|simpl; lia]).
    destruct Hnot as [H1|[H1|H1]]; try lia.
    subst st. simpl in Hsum. lia.
Qed.

(** ** The depth of the recursion and the number of comparisons *)

Lemma half_bounds (n : nat) : 2 * (n / 2) <= n <= 2 * (n / 2) + 1.
Proof.
  pose proof (Nat.div_mod_eq n 2) as H.
  pose proof (Nat.mod_upper_bound n 2). lia.
Qed.

Lemma log2_up_half (n : nat) :
  2 <= n -> Nat.log2_up n = S (Nat.log2_up (n - n / 2)).
Proof.
  intro Hn. pose proof (half_bounds n) as Hh.
  remember (n / 2) as h eqn:Eh. remember (n - h) as m eqn:Em.
  apply Nat.log2_up_unique; [lia|].
  rewrite Nat.pred_succ, Nat.pow_succ_r'.
  destruct (Nat.eq_dec m 1) as [H1|H1].
  - rewrite H1. change (Nat.log2_up 1) with 0.
    rewrite Nat.pow_0_r. lia.
  - pose proof (Nat.log2_up_spec m) as Hspec.
    pose proof (Nat.log2_up_pos m) as Hpos.
    destruct (Nat.log2_up m) as [|L]; [lia|].
    rewrite Nat.pred_succ in Hspec. rewrite Nat.pow_succ_r' in *. lia.
Qed.

Section DepthFacts.

Context {A : Type}.
Variable lt : A -> A -> bool.

Lemma merge_sort_rec_depth (fuel : nat) :
  forall arr : list A,
    (Nat.log2_up (length arr) <= fuel ->
     exists out,
       merge_sort_rec lt fuel arr = Some out /\ returns lt arr out) /\
    (fuel < Nat.log2_up (length arr) ->
     merge_sort_rec lt fuel arr = None).
Proof.
  induction fuel as [|fuel IH]; intro arr;
    rewrite merge_sort_rec_unfold;
    destruct (Nat.leb_spec (length arr) 1) as [Hlen|Hlen].
  - split.
    + intros _. exists arr. split; [reflexivity|now constructor].
    + assert (Nat.log2_up (length arr) = 0)
        by (destruct (length arr) as [|[|n]]; [reflexivity|reflexivity|lia]).
      lia.
  - pose proof (Nat.log2_up_pos (length arr)). split; [lia|reflexivity].
  - split.
    + intros _. exists arr. split; [reflexivity|now constructor].
    + assert (Nat.log2_up (length arr) = 0)
        by (destruct (length arr) as [|[|n]]; [reflexivity|reflexivity|lia]).
      lia.
  - pose proof (half_bounds (length arr)) as Hh.
    assert (Hl : length (firstn (length arr / 2) arr) = length arr / 2)
      by (rewrite length_firstn; lia).
    assert (Hr : length (skipn (length arr / 2) arr)
                 = length arr - length arr / 2)
      by apply length_skipn.
    assert (Hmono : Nat.log2_up (length arr / 2)
                    <= Nat.log2_up (length arr - length arr / 2))
      by (apply Nat.log2_up_le_mono; lia).
    rewrite (log2_up_half (length arr)) by lia.
    destruct (IH (firstn (length arr / 2) arr)) as [IHl1 IHl2].
    destruct (IH (skipn (length arr / 2) arr)) as [IHr1 IHr2].
    rewrite Hl in IHl1, IHl2. rewrite Hr in IHr1, IHr2. split; intro H.
    + destruct IHl1 as (l & El & Rl); [lia|].
      destruct IHr1 as (r & Er & Rr); [lia|].
      rewrite El, Er, merge_is_merge_list.
      eexists; split; [reflexivity|]. now constructor.
    + rewrite IHr2 by lia.
      now destruct (merge_sort_rec lt fuel (firstn (length arr / 2) arr)).
Qed.

Lemma merge_counting_bound (l r : list A) :
  exists c,
    merge_counting lt l r = Some (merge_list lt l r, c) /\
    c <= length l + length r - 1.
Proof.
  destruct (merge_while_passes lt (length l + length r) l r
              (Cursors [] 0 0))
    as (st & k & Hrun & Hlen & Hsum & Hi & Hj & Hend & Hnot & _);
    simpl; try lia; [reflexivity|].
  simpl in Hlen, Hsum.
  assert (Hk : k <= length l + length r - 1).
  { destruct Hnot as [H|[H|H]]; try lia. subst st. simpl in Hsum. lia. }
  pose proof (merge_is_merge_list lt l r) as Hm.
  unfold merge in Hm. unfold merge_counting.
  rewrite Hrun in *.
  destruct (Nat.leb_spec k (length l + length r)); [|lia].
  inversion Hm as [Hm']. rewrite Hm'.
  exists (length (result st)). split; [reflexivity|lia].
Qed.

Lemma merge_sort_counting_unfold (fuel : nat) (arr : list A) :
  merge_sort_counting lt fuel arr =
  if length arr <=? 1 then Some (arr, 0)
  else
    match fuel with
    | O => None
    | S fuel' =>
        match merge_sort_counting lt fuel' (firstn (length arr / 2) arr) with
        | Some (left_half, c_left) =>
            match
              merge_sort_counting lt fuel' (skipn (length arr / 2) arr)
            with
            | Some (right_half, c_right) =>
                match merge_counting lt left_half right_half with
                | Some (out, c) => Some (out, c_left + c_right + c)
                | None => None
                end
            | None => None
            end
        | None => None
        end
    end.
Proof. destruct fuel; reflexivity. Qed.

(** The counting run returns the list of the plain run, and its count is
    at most [n * ceil(log2 n)] for an argument of length [n]. *)
Lemma merge_sort_counting_bound (fuel : nat) :
  forall arr : list A,
    length arr <= fuel ->
    exists out c,
      merge_sort_counting lt fuel arr = Some (out, c) /\
      merge_sort_rec lt fuel arr = Some out /\
      length out = length arr /\
      c <= length arr * Nat.log2_up (length arr).
Proof.
  induction fuel as [|fuel IH]; intros arr Hfuel;
    rewrite merge_sort_counting_unfold, merge_sort_rec_unfold;
    destruct (Nat.leb_spec (length arr) 1) as [Hlen|Hlen];
    try (exists arr, 0; repeat split; lia).
  pose proof (half_bounds (length arr)) as Hh.
  assert (Hl : length (firstn (length arr / 2) arr) = length arr / 2)
    by (rewrite length_firstn; lia).
  assert (Hr : length (skipn (length arr / 2) arr)
               = length arr - length arr / 2)
    by apply length_skipn.
  destruct (IH (firstn (length arr / 2) arr))
    as (l & cl & Cl & El & Ll & Bl); [lia|].
  destruct (IH (skipn (length arr / 2) arr))
    as (r & cr & Cr & Er & Lr & Br); [lia|].
  destruct (merge_counting_bound l r) as (c & Cm & Bm).
  rewrite Cl, Cr, Cm, El, Er, merge_is_merge_list.
  exists (merge_list lt l r), (cl + cr + c).
  split; [reflexivity|]. split; [reflexivity|].
  rewrite merge_list_length, Ll, Lr, Hl, Hr. split; [lia|].
  rewrite Ll, Lr in Bm. rewrite Hl in Bl, Bm. rewrite Hr in Br, Bm.
  rewrite (log2_up_half (length arr)) by lia.
  remember (length arr) as n eqn:En.
  remember (n / 2) as h eqn:Eh.
  remember (Nat.log2_up (n - h)) as L eqn:EL.
  assert (Hmono : Nat.log2_up h <= L)
    by (subst L; apply Nat.log2_up_le_mono; lia).
  assert (Hm : h * Nat.log2_up h <= h * L)
    by (apply Nat.mul_le_mono_l; exact Hmono).
  replace (n * S L) with (h * L + (n - h) * L + n) by nia.
  lia.
Qed.

End DepthFacts.

(** X3 (depth of the recursion): [merge_sort] on a sequence of length [n]
    nests its calls [ceil(log2 n)] deep: a budget of that depth, or more,
    returns what [merge_sort] returns, and a smaller one does not reach the
    base cases. *)
Theorem merge_sort_depth {A : Type} (lt : A -> A -> bool)
    (fuel : nat) (arr : list A) :
  merge_sort_rec lt fuel arr =
  if Nat.log2_up (length arr) <=? fuel then merge_sort lt arr else None.
Proof.
  destruct (merge_sort_rec_depth lt fuel arr) as [Hge Hlt].
  destruct (Nat.leb_spec (Nat.log2_up (length arr)) fuel) as [H|H].
  - destruct (Hge H) as (out & Hout & Hret).
    destruct (merge_sort_returns lt arr) as (out' & Hout' & Hret').
    rewrite Hout, Hout'. f_equal.
    exact (returns_functional lt arr out out' Hret Hret').
  - exact (Hlt H).
Qed.

(** X4 (linearithmic): on a sequence of length [n], [merge_sort] and all
    the calls below it make at most [n * ceil(log2 n)] comparisons of
    elements, and the counting run returns the list [merge_sort]
    returns. *)
Theorem merge_sort_comparisons {A : Type} (lt : A -> A -> bool)
    (S : list A) :
  exists out c,
    merge_sort_counting lt (length S) S = Some (out, c) /\
    merge_sort lt S = Some out /\
    c <= length S * Nat.log2_up (length S).
Proof.
  destruct (merge_sort_counting_bound lt (length S) S)
    as (out & c & Hc & Hout & _ & Hb); [lia|].
  exists out, c. auto.
Qed.

(** ** The order of the elements in what [merge] returns *)

Section InterleavingFacts.

Context {A : Type}.
Variable lt : A -> A -> bool.

Lemma interleaving_nil_l (r : list A) : interleaving [] r r.
Proof. induction r; constructor; assumption. Qed.

Lemma interleaving_nil_r (l : list A) : interleaving l [] l.
Proof. induction l; constructor; assumption. Qed.

Lemma merge_list_interleaving (l r : list A) :
  interleaving l r (merge_list lt l r).
Proof.
  revert r; induction l as [|x l IHl]; intro r;
    [apply interleaving_nil_l|].
  induction r as [|y r IHr]; [apply interleaving_nil_r|].
  rewrite merge_list_cons. destruct (lt x y); constructor.
  - apply IHl.
  - exact IHr.
Qed.

Lemma equal_valued_perm_length (k : A) (l l' : list A) :
  Permutation l l' ->
  length (equal_valued lt k l) = length (equal_valued lt k l').
Proof.
  unfold equal_valued.
  induction 1 as [|a l l' _ IH|a b l|l l' l'' _ IH1 _ IH2]; simpl.
  - reflexivity.
  - destruct (tied lt k a); simpl; now rewrite IH.
  - destruct (tied lt k a), (tied lt k b); reflexivity.
  - now rewrite IH1.
Qed.

End InterleavingFacts.

(** X5 ([merge] never reorders one input): whatever [left] and [right]
    hold, sorted or not, the list [merge] returns is made of the elements
    of [left] in their order in [left] and the elements of [right] in their
    order in [right]. *)
Theorem merge_interleaves {A : Type} (lt : A -> A -> bool)
    (left right : list A) :
  exists out,
    merge lt left right = Some out /\ interleaving left right out.
Proof.
  exists (merge_list lt left right).
  split; [apply merge_is_merge_list|apply merge_list_interleaving].
Qed.

(** X6 ([merge_sort] returns the sorted arrangement): every sorted list
    [sorted] with the elements of [S] has, at each position, an element
    equal-valued to the one [merge_sort S] returns there; in a total
    order, where equal-valued elements are identical, [merge_sort S] is
    that list.  In particular a sorted [S] is returned as it is, and the
    order of the elements of [S] does not matter. *)
Theorem merge_sort_unique {A : Type} (lt : A -> A -> bool)
    (S sorted : list A) :
  asymmetric lt -> negatively_transitive lt ->
  Permutation sorted S -> nondecreasing lt sorted ->
  exists out,
    merge_sort lt S = Some out /\
    Forall2 (fun a b => tied lt a b = true) out sorted /\
    (antisymmetric lt -> out = sorted).
Proof.
  intros Hasym Hneg Hperm Hsorted.
  destruct (merge_sort_returns lt S) as (out & Hout & Hret).
  exists out. split; [exact Hout|].
  assert (Htied : Forall2 (fun a b => tied lt a b = true) out sorted).
  { apply (sorted_same_classes lt Hasym Hneg).
    - exact (returns_sorted lt _ _ Hasym Hret).
    - now apply nondecreasing_Sorted.
    - intro k. apply equal_valued_perm_length.
      rewrite Hperm. exact (returns_perm lt _ _ Hret). }
  split; [exact Htied|].
  intro Hanti. exact (tied_everywhere_eq lt _ _ Hanti Htied).
Qed.

Lemma merge_sort_unique_witness :
  merge_sort Z.ltb [3; 1; 2]%Z = Some [1; 2; 3]%Z.
Proof.
  destruct (merge_sort_unique Z.ltb [3; 1; 2]%Z [1; 2; 3]%Z)
    as (out & Hout & _ & Heq).
  - exact Z_ltb_asymmetric.
  - exact Z_ltb_negatively_transitive.
  - apply (Permutation_cons_app [3%Z] [2%Z]). apply perm_swap.
  - apply Sorted_nondecreasing. repeat constructor.
  - rewrite Hout. f_equal. apply Heq. exact Z_ltb_antisymmetric.
Defined.

(** ** Order between any two positions *)

Section GlobalOrder.

Context {A : Type}.
Variable lt : A -> A -> bool.
Hypothesis Hasym : asymmetric lt.
Hypothesis Hneg : negatively_transitive lt.

Lemma Sorted_positions (s : list A) :
  Sorted (le lt) s ->
  forall p q x y,
    p <= q -> nth_error s p = Some x -> nth_error s q = Some y ->
    le lt x y.
Proof.
  induction s as [|a s IH]; intros Hs p q x y Hpq Hx Hy.
  - now destruct p.
  - pose proof (Sorted_le_all lt Hneg a s Hs) as Hall.
    destruct p as [|p], q as [|q]; simpl in Hx, Hy; try lia.
    + inversion Hx; inversion Hy; subst. apply (lt_irrefl lt Hasym).
    + inversion Hx; subst.
      rewrite Forall_forall in Hall. apply Hall.
      exact (nth_error_In _ _ Hy).
    + inversion Hs; subst.
      apply (IH ltac:(assumption) p q); [lia|assumption|assumption].
Qed.

End GlobalOrder.

Section ConcatFacts.

Context {A : Type}.
Variable lt : A -> A -> bool.

Lemma merge_list_below (l r : list A) :
  (forall x y, In x l -> In y r -> lt x y = true) ->
  merge_list lt l r = l ++ r.
Proof.
  induction l as [|x l IH]; intro H; [reflexivity|].
  destruct r as [|y r]; [now rewrite merge_list_nil_r, app_nil_r|].
  rewrite merge_list_cons, (H x y) by (simpl; auto).
  simpl. f_equal. apply IH. intros a b Ha Hb. apply H; simpl; auto.
Qed.

Lemma merge_list_not_below (l r : list A) :
  (forall x y, In x l -> In y r -> lt x y = false) ->
  merge_list lt l r = r ++ l.
Proof.
  destruct l as [|x l]; intro H; [now rewrite app_nil_r|].
  induction r as [|y r IH]; [reflexivity|].
  rewrite merge_list_cons, (H x y) by (simpl; auto).
  simpl. f_equal. apply IH. intros a b Ha Hb. apply H; simpl; auto.
Qed.

End ConcatFacts.

(** X7 (order between any two positions, and the minimum first): in the
    list [merge_sort S] returns, an element at an earlier position is less
    than or equal to the element at any later position, and the first
    element is less than or equal to every element of [S]. *)
Theorem merge_sort_ordered_positions {A : Type} (lt : A -> A -> bool)
    (S : list A) :
  asymmetric lt -> negatively_transitive lt ->
  exists out,
    merge_sort lt S = Some out /\
    (forall p q x y,
        p <= q -> nth_error out p = Some x -> nth_error out q = Some y ->
        le lt x y) /\
    (forall m x, nth_error out 0 = Some m -> In x S -> le lt m x).
Proof.
  intros Hasym Hneg.
  destruct (merge_sort_returns lt S) as (out & Hout & Hret).
  pose proof (returns_sorted lt _ _ Hasym Hret) as Hsorted.
  pose proof (Sorted_positions lt Hasym Hneg out Hsorted) as Hpos.
  exists out. split; [exact Hout|]. split; [exact Hpos|].
  intros m x Hm Hx.
  assert (Hin : In x out).
  { apply (Permutation_in x (Permutation_sym (returns_perm lt _ _ Hret))).
    exact Hx. }
  destruct (In_nth_error _ _ Hin) as [q Hq].
  apply (Hpos 0 q m x); [lia|exact Hm|exact Hq].
Qed.

Lemma merge_sort_ordered_positions_witness :
  exists out,
    merge_sort Z.ltb [5; 3; 8; 1]%Z = Some out /\
    (forall p q x y,
        p <= q -> nth_error out p = Some x -> nth_error out q = Some y ->
        le Z.ltb x y) /\
    (forall m x,
        nth_error out 0 = Some m -> In x [5; 3; 8; 1]%Z -> le Z.ltb m x).
Proof.
  apply (merge_sort_ordered_positions Z.ltb).
  - exact Z_ltb_asymmetric.
  - exact Z_ltb_negatively_transitive.
Defined.

(** X8 ([merge] of lists that do not overlap): when every element of
    [left] is less than every element of [right], [merge] returns [left]
    followed by [right]; when no element of [left] is less than an element
    of [right], ties included, it returns [right] followed by [left].
    Neither needs the lists to be sorted. *)
Theorem merge_concatenates {A : Type} (lt : A -> A -> bool)
    (left right : list A) :
  ((forall x y, In x left -> In y right -> lt x y = true) ->
   merge lt left right = Some (left ++ right)) /\
  ((forall x y, In x left -> In y right -> lt x y = false) ->
   merge lt left right = Some (right ++ left)).
Proof.
  split; intro H; rewrite merge_is_merge_list; f_equal.
  - now apply merge_list_below.
  - now apply merge_list_not_below.
Qed.

(** ** Elements that are not comparable *)

Section CheckedFacts.

Context {A : Type}.
Variable cmp : A -> A -> option bool.
Variable lt : A -> A -> bool.

Lemma merge_while_checked_agrees (fuel : nat) (left right : list A) :
  (forall x y, In x left -> In y right -> cmp x y = Some (lt x y)) ->
  forall st,
    merge_while_checked cmp fuel left right st =
    match merge_while lt fuel left right st with
    | Some st' => Returned st'
    | None => Unfinished
    end.
Proof.
  intro H. induction fuel as [|fuel IH]; intro st; simpl;
    destruct ((i st <? length left) && (j st <? length right));
    try reflexivity.
  destruct (nth_error left (i st)) as [x|] eqn:Hx; [|reflexivity].
  destruct (nth_error right (j st)) as [y|] eqn:Hy; [|reflexivity].
  rewrite (H x y (nth_error_In _ _ Hx) (nth_error_In _ _ Hy)).
  destruct (lt x y); apply IH.
Qed.

Lemma merge_checked_agrees (left right : list A) :
  (forall x y, In x left -> In y right -> cmp x y = Some (lt x y)) ->
  merge_checked cmp left right = Returned (merge_list lt left right).
Proof.
  intro H. unfold merge_checked.
  rewrite (merge_while_checked_agrees _ left right H).
  pose proof (merge_is_merge_list lt left right) as Hm. unfold merge in Hm.
  destruct (merge_while lt (length left + length right) left right
              (Cursors [] 0 0)); [|discriminate].
  now inversion Hm.
Qed.

Lemma merge_sort_rec_checked_unfold (fuel : nat) (arr : list A) :
  merge_sort_rec_checked cmp fuel arr =
  if length arr <=? 1 then Returned arr
  else
    match fuel with
    | O => Unfinished
    | S fuel' =>
        match
          merge_sort_rec_checked cmp fuel' (firstn (length arr / 2) arr)
        with
        | Returned left_half =>
            match
              merge_sort_rec_checked cmp fuel' (skipn (length arr / 2) arr)
            with
            | Returned right_half => merge_checked cmp left_half right_half
            | TypeError => TypeError
            | Unfinished => Unfinished
            end
        | TypeError => TypeError
        | Unfinished => Unfinished
        end
    end.
Proof. destruct fuel; reflexivity. Qed.

Lemma merge_sort_rec_sound (fuel : nat) (arr out : list A) :
  merge_sort_rec lt fuel arr = Some out -> Permutation out arr.
Proof.
  intro H. destruct (merge_sort_rec_depth lt fuel arr) as [Hge Hlt].
  destruct (Nat.leb_spec (Nat.log2_up (length arr)) fuel) as [Hf|Hf].
  - destruct (Hge Hf) as (out' & Hout' & Hret).
    rewrite H in Hout'. inversion Hout'; subst.
    exact (returns_perm lt _ _ Hret).
  - rewrite (Hlt Hf) in H. discriminate.
Qed.

Lemma in_firstn_in (k : nat) (s : list A) (x : A) :
  In x (firstn k s) -> In x s.
Proof.
  intro H. rewrite <- (firstn_skipn k s). apply in_or_app. now left.
Qed.

Lemma in_skipn_in (k : nat) (s : list A) (x : A) :
  In x (skipn k s) -> In x s.
Proof.
  intro H. rewrite <- (firstn_skipn k s). apply in_or_app. now right.
Qed.

Lemma merge_sort_rec_checked_agrees (fuel : nat) :
  forall arr : list A,
    (forall x y, In x arr -> In y arr -> cmp x y = Some (lt x y)) ->
    merge_sort_rec_checked cmp fuel arr =
    match merge_sort_rec lt fuel arr with
    | Some out => Returned out
    | None => Unfinished
    end.
Proof.
  induction fuel as [|fuel IH]; intros arr H;
    rewrite merge_sort_rec_checked_unfold, merge_sort_rec_unfold;
    destruct (length arr <=? 1); try reflexivity.
  rewrite (IH (firstn (length arr / 2) arr))
    by (intros x y Hx Hy; apply H; eapply in_firstn_in; eassumption).
  rewrite (IH (skipn (length arr / 2) arr))
    by (intros x y Hx Hy; apply H; eapply in_skipn_in; eassumption).
  destruct (merge_sort_rec lt fuel (firstn (length arr / 2) arr))
    as [l|] eqn:El; [|reflexivity].
  destruct (merge_sort_rec lt fuel (skipn (length arr / 2) arr))
    as [r|] eqn:Er; [|reflexivity].
  rewrite merge_is_merge_list. apply merge_checked_agrees.
  intros x y Hx Hy. apply H.
  - apply (in_firstn_in (length arr / 2)).
    exact (Permutation_in x (merge_sort_rec_sound _ _ _ El) Hx).
  - apply (in_skipn_in (length arr / 2)).
    exact (Permutation_in y (merge_sort_rec_sound _ _ _ Er) Hy).
Qed.

End CheckedFacts.

Section RaisingFacts.

Context {A : Type}.
Variable cmp : A -> A -> option bool.



End RaisingFacts.

(** X9 (no error on comparable elements): when [<] is defined on every
    two elements of [S], [merge_sort S] raises nothing and returns the
    list that it returns with [<] taken as a total function; the same for
    [merge] when [<] is defined between the elements of [left] and those of
    [right]. *)
Theorem merge_sort_checked_agrees {A : Type}
    (cmp : A -> A -> option bool) (lt : A -> A -> bool) (S : list A) :
  (forall x y, In x S -> In y S -> cmp x y = Some (lt x y)) ->
  exists out,
    merge_sort_checked cmp S = Returned out /\
    merge_sort lt S = Some out /\
    forall left right,
      (forall x y, In x left -> In y right -> cmp x y = Some (lt x y)) ->
      exists merged,
        merge_checked cmp left right = Returned merged /\
        merge lt left right = Some merged.
Proof.
  intro H.
  destruct (merge_sort_returns lt S) as (out & Hout & _).
  exists out. split; [|split; [exact Hout|]].
  - unfold merge_sort_checked.
    rewrite (merge_sort_rec_checked_agrees cmp lt (length S) S H).
    unfold merge_sort in Hout. now rewrite Hout.
  - intros left right Hlr. exists (merge_list lt left right).
    split; [now apply merge_checked_agrees|apply merge_is_merge_list].
Qed.

Lemma merge_sort_checked_agrees_witness :
  exists out,
    merge_sort_checked (fun x y => Some (x <? y)%Z) [3; 1; 2]%Z
      = Returned out /\
    merge_sort Z.ltb [3; 1; 2]%Z = Some out.
Proof.
  destruct (merge_sort_checked_agrees
              (fun x y => Some (x <? y)%Z) Z.ltb [3; 1; 2]%Z)
    as (out & Hc & Hs & _).
  - reflexivity.
  - exists out. split; assumption.
Defined.


(** ** The three columns of the growth table *)

Lemma log2_pow10 (k : positive) :
  log2 (IZR (10 ^ Zpos k)) = (IZR (Zpos k) * log2 10)%R.
Proof.
  unfold log2. rewrite ln_IZR_pow by lia. pose proof ln_2_pos. field. lra.
Qed.

Lemma Rabs_le_bounds (x y : R) : (Rabs x <= y)%R -> (- y <= x <= y)%R.
Proof. unfold Rabs. destruct (Rcase_abs x); lra. Qed.

(** X11 (the three columns): on each of the four rows of the table the
    linearithmic value lies strictly between the linear and the quadratic
    value, and so does every value within 1/10000 of [n * log2 n]. *)
Theorem growth_row_between :
  Forall
    (fun r =>
       forall v : R,
         (Rabs (v - linearithmic r) <= 1 / 10000)%R ->
         (IZR (linear r) < v < IZR (quadratic r))%R)
    simulate_growth.
Proof.
  destruct log2_10_bounds as [Hlo Hhi].
  pose proof (log2_pow10 2) as H100.
  pose proof (log2_pow10 3) as H1000.
  pose proof (log2_pow10 4) as H10000.
  change (IZR (10 ^ 2)) with 100%R in H100.
  change (IZR (10 ^ 3)) with 1000%R in H1000.
  change (IZR (10 ^ 4)) with 10000%R in H10000.
  unfold simulate_growth, sizes. simpl map.
  apply Forall_cons;
    [|apply Forall_cons;
      [|apply Forall_cons; [|apply Forall_cons; [|apply Forall_nil]]]];
    intros v Hv; apply Rabs_le_bounds in Hv;
    unfold growth_row in *; cbn [linear linearithmic quadratic] in *.
  - change (IZR (10 ^ 2)) with 100%R. lra.
  - rewrite H100 in Hv. change (IZR (100 ^ 2)) with 10000%R. lra.
  - rewrite H1000 in Hv. change (IZR (1000 ^ 2)) with 1000000%R. lra.
  - rewrite H10000 in Hv. change (IZR (10000 ^ 2)) with 100000000%R. lra.
Qed.
